(** * react-interview-q1: the asynchronous validation hook and the form

    A shallow embedding of [src/hooks/useAsyncValidation.ts] and of the
    state logic of [src/components/Form.tsx].

    React is modelled as a transition system on the state of one
    component instance.  A state update together with the re-render and
    the effect pass that it triggers is one atomic transition (React
    flushes the updates and the effects of a discrete event before it
    returns to the event loop); the settlement of a promise is another
    transition, taken from the microtask queue in any order.  Where a
    statement is about what the caller reads between the call of a
    mutator and the next render, the transition is split into these two
    parts ([Instance], [call_initValue], [call_handleChange],
    [rerender]). *)

From stdpp Require Import base strings list.

Local Open Scope string_scope.
Local Open Scope list_scope.

Module AsyncValidation.

(** ** Data model *)

(** [interface ValidationResult] *)
Record ValidationResult := mkResult {
  isValid : bool;
  message : string;
}.

Definition INITIAL_VALIDATION_RESULT : ValidationResult :=
  {| isValid := true; message := "" |}.

Definition EXCEPTION_VALIDATION_RESULT : ValidationResult :=
  {| isValid := false;
     message := "An error occurred while validating. Try again later." |}.

(** What a thrown or rejected value carries: the detail of the error. *)
Definition error := string.

(** How the promise returned by [validateAsync] settles. *)
Inductive settlement :=
  | Fulfilled (validationResult : ValidationResult)
  | Rejected (e : error).

(** What the call [validateAsync(value)] itself does: it returns a promise
    (which settles later, as an event), or it throws before returning one. *)
Inductive call :=
  | ReturnsPromise
  | Throws (e : error).

(** One run of the effect.  Each run has its own [let isMounted], shared
    by the [validate] closure and by the cleanup closure that the run
    returns; [settled] is the state of the promise that the run awaits. *)
Record Cycle := mkCycle {
  input : string;
  isMounted : bool;
  settled : bool;
}.

(** The hook instance: the three [useState] cells, whether the component
    is still mounted, the effect runs so far (the index of a run is its
    cycle id), the run whose cleanup React currently holds, and the errors
    that escaped [validate()] (unhandled rejections of its promise). *)
Record Hook := mkHook {
  value : string;
  result : ValidationResult;
  pending : bool;
  mounted : bool;
  cycles : list Cycle;
  cleanup : option nat;
  unhandled : list error;
}.

(** [interface HookResult], without the two callbacks. *)
Record HookResult := mkHookResult {
  hr_value : string;
  hr_isValid : bool;
  hr_message : string;
  hr_pending : bool;
}.

(** [return { value, ...result, pending, ... }] *)
Definition render (h : Hook) : HookResult :=
  {| hr_value := value h;
     hr_isValid := isValid (result h);
     hr_message := message (result h);
     hr_pending := pending h |}.

(** ** Writes to the state *)

Definition with_value (v : string) (h : Hook) : Hook :=
  mkHook v (result h) (pending h) (mounted h) (cycles h) (cleanup h)
         (unhandled h).

Definition with_result (r : ValidationResult) (h : Hook) : Hook :=
  mkHook (value h) r (pending h) (mounted h) (cycles h) (cleanup h)
         (unhandled h).

Definition with_pending (b : bool) (h : Hook) : Hook :=
  mkHook (value h) (result h) b (mounted h) (cycles h) (cleanup h)
         (unhandled h).

Definition with_mounted (b : bool) (h : Hook) : Hook :=
  mkHook (value h) (result h) (pending h) b (cycles h) (cleanup h)
         (unhandled h).

Definition with_cycles (cs : list Cycle) (h : Hook) : Hook :=
  mkHook (value h) (result h) (pending h) (mounted h) cs (cleanup h)
         (unhandled h).

Definition with_cleanup (c : option nat) (h : Hook) : Hook :=
  mkHook (value h) (result h) (pending h) (mounted h) (cycles h) c
         (unhandled h).

Definition with_unhandled (es : list error) (h : Hook) : Hook :=
  mkHook (value h) (result h) (pending h) (mounted h) (cycles h) (cleanup h) es.

Definition unmount_flag (c : Cycle) : Cycle :=
  mkCycle (input c) false (settled c).

Definition settle_flag (c : Cycle) : Cycle :=
  mkCycle (input c) (isMounted c) true.

(** ** The body of [validate]: state and exceptions *)

(** A computation reads and writes the hook state and completes normally
    ([inr]) or abruptly with a thrown value ([inl]). *)
Definition M (A : Type) : Type := Hook → Hook * (error + A).

Definition ret {A} (a : A) : M A := λ h, (h, inr a).

Definition bind {A B} (m : M A) (k : A → M B) : M B :=
  λ h, match m h with
       | (h', inr a) => k a h'
       | (h', inl e) => (h', inl e)
       end.

Definition throw {A} (e : error) : M A := λ h, (h, inl e).

(** [try { body } catch (error) { handler }] *)
Definition try_catch {A} (body : M A) (handler : error → M A) : M A :=
  λ h, match body h with
       | (h', inr a) => (h', inr a)
       | (h', inl e) => handler e h'
       end.

(** [try { body } finally { finalizer }]: the finalizer always runs; the
    completion of the body is kept unless the finalizer itself throws. *)
Definition try_finally {A} (body : M A) (finalizer : M unit) : M A :=
  λ h, match body h with
       | (h', r) =>
           match finalizer h' with
           | (h'', inr _) => (h'', r)
           | (h'', inl e) => (h'', inl e)
           end
       end.

Declare Scope hook_scope.
Delimit Scope hook_scope with hook.
Notation "'let*' x := m 'in' k" := (bind m (λ x, k))
  (at level 10, x name, m at level 100, k at level 200) : hook_scope.

(** [if (c) { m }] *)
Definition when (c : bool) (m : M unit) : M unit :=
  if c then m else ret ().

(** The state setters.  They are plain writes: nothing here relies on
    React dropping the updates of an unmounted component. *)
Definition setResult (r : ValidationResult) : M unit :=
  λ h, (with_result r h, inr ()).

Definition setPending (b : bool) : M unit :=
  λ h, (with_pending b h, inr ()).

(** The [isMounted] variable of run [id], and reading it. *)
Definition isMounted_of (id : nat) (h : Hook) : bool :=
  match cycles h !! id with
  | Some c => isMounted c
  | None => false
  end.

Definition read_isMounted (id : nat) : M bool :=
  λ h, (h, inr (isMounted_of id h)).

(** [await p]: resumes with the value of [p], or throws its reason. *)
Definition await (s : settlement) : M ValidationResult :=
  match s with
  | Fulfilled validationResult => ret validationResult
  | Rejected e => throw e
  end.

(** [validate] of run [id], from the [await] on: the [try]/[catch]/[finally]
    statement, resumed with the settlement of the awaited promise. *)
Definition validate_resume (id : nat) (s : settlement) : M unit :=
  (try_finally
     (try_catch
        (let* validationResult := await s in
         let* m := read_isMounted id in
         when m (setResult validationResult))
        (λ _error,
         let* m := read_isMounted id in
         when m (setResult EXCEPTION_VALIDATION_RESULT)))
     (let* m := read_isMounted id in
      when m (setPending false)))%hook.

(** An error that escapes [validate()] rejects the promise it returns,
    which nobody handles. *)
Definition complete (r : Hook * (error + unit)) : Hook :=
  match r with
  | (h, inr _) => h
  | (h, inl e) => with_unhandled (unhandled h ++ [e]) h
  end.

(** The awaited promise of run [id] is settled from now on. *)
Definition mark_settled (id : nat) (h : Hook) : Hook :=
  with_cycles (alter settle_flag id (cycles h)) h.

Section Hook.

(** The [validateAsync] argument of the hook.  Its identity is the same
    at every render (in [Form] it is a module-level constant), so the
    dependency list [[value, validateAsync]] changes only with [value]. *)
Variable validateAsync : string → call.

(** ** The hook *)

(** The three [useState] calls of the first render. *)
Definition useState_init (initialValue : string) : Hook :=
  {| value := initialValue;
     result := INITIAL_VALIDATION_RESULT;
     pending := false;
     mounted := true;
     cycles := [];
     cleanup := None;
     unhandled := [] |}.

(** One run of the effect: a fresh [isMounted = true], then [validate()]
    up to its [await], and the cleanup closure handed to React.  When the
    call of [validateAsync] throws, control enters the [catch] block at
    once, within the same run. *)
Definition run_effect (h : Hook) : Hook :=
  let id := length (cycles h) in
  let h := with_cycles (cycles h ++ [mkCycle (value h) true false]) h in
  let h := with_cleanup (Some id) h in
  let h := fst (setPending true h) in
  match validateAsync (value h) with
  | ReturnsPromise => h
  | Throws e => mark_settled id (complete (validate_resume id (Rejected e) h))
  end.

(** The cleanup closure of the last run: [isMounted = false]. *)
Definition run_cleanup (h : Hook) : Hook :=
  match cleanup h with
  | Some id => with_cycles (alter unmount_flag id (cycles h)) h
  | None => h
  end.

(** Mounting: first render, then the effect.  (Under [React.StrictMode]
    a development build runs effect, cleanup and effect again here; the
    production behaviour is the one modelled.) *)
Definition mount (initialValue : string) : Hook :=
  run_effect (useState_init initialValue).

(** [setValue(newValue)] and the render it causes.  React compares the
    new state with [Object.is] ([String.eqb] on strings): an equal value
    bails out, and even a
    render would find the dependencies unchanged and skip the effect.
    Otherwise the old cleanup runs and then the effect.  An unmounted
    component ignores the update. *)
Definition setValue (newValue : string) (h : Hook) : Hook :=
  if mounted h then
    if String.eqb newValue (value h) then h
    else run_effect (run_cleanup (with_value newValue h))
  else h.

Definition initValue (newValue : string) (h : Hook) : Hook :=
  setValue newValue h.

(** [handleChange(e)], with [target_value] for [e.target.value]. *)
Definition handleChange (target_value : string) (h : Hook) : Hook :=
  setValue target_value h.

(** The promise awaited by run [id] settles; [validate] resumes.  A
    promise settles once, and only a promise that exists can settle. *)
Definition settle (id : nat) (s : settlement) (h : Hook) : option Hook :=
  match cycles h !! id with
  | Some c =>
      if settled c then None
      else Some (mark_settled id (complete (validate_resume id s h)))
  | None => None
  end.

(** Unmounting runs the cleanup of the last effect run. *)
Definition unmount (h : Hook) : option Hook :=
  if mounted h then
    Some (with_mounted false (with_cleanup None (run_cleanup h)))
  else None.

(** ** Traces *)

Inductive event :=
  | EvInitValue (newValue : string)
  | EvHandleChange (target_value : string)
  | EvSettle (id : nat) (s : settlement)
  | EvUnmount.

Definition step (ev : event) (h : Hook) : option Hook :=
  match ev with
  | EvInitValue v => Some (initValue v h)
  | EvHandleChange v => Some (handleChange v h)
  | EvSettle id s => settle id s h
  | EvUnmount => unmount h
  end.

Fixpoint run (evs : list event) (h : Hook) : option Hook :=
  match evs with
  | [] => Some h
  | ev :: evs' =>
      match step ev h with
      | Some h' => run evs' h'
      | None => None
      end
  end.

(** A cycle is outstanding while its promise has not settled; it is the
    most recently started one when no later run exists. *)
Definition outstanding (id : nat) (h : Hook) : bool :=
  match cycles h !! id with
  | Some c => negb (settled c)
  | None => false
  end.

Definition latest (id : nat) (h : Hook) : bool :=
  Nat.eqb (S id) (length (cycles h)).

Definition superseded (id : nat) (h : Hook) : bool :=
  Nat.ltb (S id) (length (cycles h)).

(** What a settlement writes to [result] when its run may still commit. *)
Definition committed (s : settlement) : ValidationResult :=
  match s with
  | Fulfilled validationResult => validationResult
  | Rejected _ => EXCEPTION_VALIDATION_RESULT
  end.

(** ** Invariants of the reachable states *)

(** Before an effect run: mounted, nothing escaped, every earlier run
    has been cleaned up. *)
Definition quiescent (h : Hook) : Prop :=
  mounted h = true ∧ unhandled h = [] ∧
  ∀ i c, cycles h !! i = Some c → isMounted c = false.

(** After it: the only run whose [isMounted] can still be true is the
    one whose cleanup React holds; that run is the last one, and
    [pending] tells whether its promise is still unsettled. *)
Record wf (h : Hook) : Prop := mkWf {
  wf_flag : ∀ i c, cycles h !! i = Some c → isMounted c = true →
            cleanup h = Some i;
  wf_cleanup : ∀ i, cleanup h = Some i →
            mounted h = true ∧ S i = length (cycles h) ∧
            ∃ c, cycles h !! i = Some c ∧ isMounted c = true ∧
                 pending h = negb (settled c);
  wf_mounted : mounted h = true → is_Some (cleanup h);
  wf_unhandled : unhandled h = [];
}.

(** ** The call of a mutator and the render that follows *)

(** The component instance between two renders: the state as the last
    render and its effects left it, and the values passed to [setValue]
    since then, which React has queued for the next render. *)
Record Instance := mkInstance {
  current : Hook;
  scheduled : list string;
}.

(** What the closures of the last render read: [value], [result] and
    [pending] are constants of that render. *)
Definition exposed (i : Instance) : HookResult :=
  render (current i).

(** The call [initValue(newValue)] itself: [setValue(newValue)] queues
    the update and returns. *)
Definition call_initValue (newValue : string) (i : Instance) : Instance :=
  mkInstance (current i) (scheduled i ++ [newValue]).

(** The call [handleChange(e)] itself. *)
Definition call_handleChange (target_value : string) (i : Instance)
  : Instance :=
  mkInstance (current i) (scheduled i ++ [target_value]).

(** The next render: [useState] returns the last queued value, and the
    effect pass follows as in [setValue].  Without a queued update there
    is nothing to render. *)
Definition rerender (i : Instance) : Instance :=
  match last (scheduled i) with
  | Some newValue => mkInstance (setValue newValue (current i)) []
  | None => i
  end.

(** ** The history of the runs *)

(** [c'] is a later state of the run [c]: the same input, a flag that
    can only have been cleared, a promise that can only have settled. *)
Definition evolves (c c' : Cycle) : Prop :=
  input c' = input c ∧
  (isMounted c' = true → isMounted c = true) ∧
  (settled c = true → settled c' = true).

(** The last run is the run for the current value. *)
Definition last_for_value (h : Hook) : Prop :=
  ∀ id c, latest id h = true → cycles h !! id = Some c → input c = value h.

End Hook.

End AsyncValidation.

Module DataItem.

(** [type DataItem] *)
Record t := mk {
  name : string;
  location : string;
}.

End DataItem.

Module Form.

Import AsyncValidation.

(** ** The mock API, seen from the form *)

(** How a promise of the mock API settles. *)
Inductive api_settlement (A : Type) :=
  | ApiFulfilled (a : A)
  | ApiRejected (e : error).
Arguments ApiFulfilled {A} a.
Arguments ApiRejected {A} e.

(** [isNameValidWrapper] is an [async] function: calling it always
    returns a promise, also when [isNameValid] throws. *)
Definition isNameValidWrapper (name : string) : call := ReturnsPromise.

(** The settlement of that promise, from the settlement of
    [isNameValid(name)]. *)
Definition isNameValidWrapper_settle (s : api_settlement bool) : settlement :=
  match s with
  | ApiFulfilled isValid =>
      Fulfilled {| isValid := isValid;
                   message := if isValid then ""
                              else "this name has already been taken" |}
  | ApiRejected e => Rejected e
  end.

(** ** State of the component *)

Record State := mkState {
  nameValidation : Hook;
  location : string;
  locationError : string;
  locationOptions : list string;
  items : list DataItem.t;
  locationsSettled : bool;
}.

Definition with_nameValidation (h : Hook) (s : State) : State :=
  mkState h (location s) (locationError s) (locationOptions s) (items s)
          (locationsSettled s).

Definition setLocation (l : string) (s : State) : State :=
  mkState (nameValidation s) l (locationError s) (locationOptions s) (items s)
          (locationsSettled s).

Definition setLocationError (e : string) (s : State) : State :=
  mkState (nameValidation s) (location s) e (locationOptions s) (items s)
          (locationsSettled s).

Definition setLocationOptions (ls : list string) (s : State) : State :=
  mkState (nameValidation s) (location s) (locationError s) ls (items s)
          (locationsSettled s).

Definition setItems (its : list DataItem.t) (s : State) : State :=
  mkState (nameValidation s) (location s) (locationError s) (locationOptions s)
          its (locationsSettled s).

Definition with_locationsSettled (b : bool) (s : State) : State :=
  mkState (nameValidation s) (location s) (locationError s) (locationOptions s)
          (items s) b.

(** First render and mount effects: the hook with [""] and the wrapper,
    the four [useState] cells, and [fetchLocations()] up to its [await]. *)
Definition mount : State :=
  {| nameValidation := AsyncValidation.mount isNameValidWrapper "";
     location := "";
     locationError := "";
     locationOptions := [];
     items := [];
     locationsSettled := false |}.

(** [fetchLocations], from the [await getLocations()] on. *)
Definition fetchLocations_resume (r : api_settlement (list string)) (s : State)
  : State :=
  match r with
  | ApiFulfilled locations => setLocationOptions locations s
  | ApiRejected _ =>
      setLocation ""
        (setLocationError
           "An error occurred while fetching locations. Try reloading the page."
           s)
  end.

(** [data.optionValue ?? ""] *)
Definition handleLocationSelect (optionValue : option string) (s : State)
  : State :=
  setLocation (default "" optionValue) s.

Definition handleClearClick (s : State) : State :=
  setLocation "" (with_nameValidation
                    (initValue isNameValidWrapper "" (nameValidation s)) s).

(** The memoised value depends on its dependency list only, so it is the
    value of the expression at the current render. *)
Definition canAdd (s : State) : bool :=
  hr_isValid (render (nameValidation s))
  && Nat.ltb 0 (String.length (hr_value (render (nameValidation s))))
  && Nat.ltb 0 (String.length (location s)).

Definition handleAddClick (s : State) : State :=
  if canAdd s then
    handleClearClick
      (setItems (items s ++ [DataItem.mk (hr_value (render (nameValidation s)))
                                         (location s)]) s)
  else s.

(** [onChange={nameValidation.handleChange}] *)
Definition handleNameChange (target_value : string) (s : State) : State :=
  with_nameValidation
    (handleChange isNameValidWrapper target_value (nameValidation s)) s.

(** ** Traces *)

Inductive event :=
  | EvNameChange (target_value : string)
  | EvLocationSelect (optionValue : option string)
  | EvClearClick
  | EvAddClick
  | EvNameValidated (id : nat) (r : api_settlement bool)
  | EvLocationsSettled (r : api_settlement (list string))
  | EvUnmount.

(** The handlers belong to the rendered elements: once the component is
    unmounted they are not called any more, and React ignores the state
    updates of the [getLocations] continuation. *)
Definition step (ev : event) (s : State) : option State :=
  match ev with
  | EvNameValidated id r =>
      h ← settle id (isNameValidWrapper_settle r) (nameValidation s);
      Some (with_nameValidation h s)
  | EvLocationsSettled r =>
      if locationsSettled s then None
      else Some (with_locationsSettled true
                   (if mounted (nameValidation s)
                    then fetchLocations_resume r s else s))
  | EvUnmount =>
      h ← unmount (nameValidation s);
      Some (with_nameValidation h s)
  | EvNameChange v =>
      Some (if mounted (nameValidation s) then handleNameChange v s else s)
  | EvLocationSelect o =>
      Some (if mounted (nameValidation s) then handleLocationSelect o s else s)
  | EvClearClick =>
      Some (if mounted (nameValidation s) then handleClearClick s else s)
  | EvAddClick =>
      Some (if mounted (nameValidation s) then handleAddClick s else s)
  end.

Fixpoint run (evs : list event) (s : State) : option State :=
  match evs with
  | [] => Some s
  | ev :: evs' =>
      match step ev s with
      | Some s' => run evs' s'
      | None => None
      end
  end.

(** A row of the table with both cells filled in. *)
Definition filled (it : DataItem.t) : Prop :=
  DataItem.name it ≠ "" ∧ DataItem.location it ≠ "".

(** The results the name field can show: the initial one, the two that
    [isNameValidWrapper] builds, and the generic failure of the hook. *)
Definition shown_result (r : ValidationResult) : Prop :=
  r = mkResult true "" ∨
  r = mkResult false "this name has already been taken" ∨
  r = EXCEPTION_VALIDATION_RESULT.

(** What the wrapper reports as validity for a settlement of the API. *)
Definition reported_valid (r : api_settlement bool) : bool :=
  isValid (committed (isNameValidWrapper_settle r)).

End Form.

(** * Sample runs

    Concrete states of the hook and of the form, on which the statements
    below are exercised. *)

Module Samples.

Import AsyncValidation.

(** The hook of the form, just mounted: one cycle, for [""]. *)
Definition just_mounted : Hook :=
  mount Form.isNameValidWrapper "".

(** The user typed ["a"] and then ["ab"] before anything settled: three
    cycles outstanding, the first two superseded. *)
Definition typed_twice : Hook :=
  handleChange Form.isNameValidWrapper "ab"
    (handleChange Form.isNameValidWrapper "a" just_mounted).

(** The same component after its unmount. *)
Definition torn_down : Hook :=
  with_mounted false (with_cleanup None (run_cleanup typed_twice)).

(** The form with a validated name and a selected location. *)
Definition ready_to_add : Form.State :=
  default Form.mount
    (Form.run [Form.EvNameChange "Ann";
               Form.EvNameValidated 1 (Form.ApiFulfilled true);
               Form.EvLocationSelect (Some "Canada")]
              Form.mount).

(** And after a click on Add. *)
Definition one_row : Form.State :=
  Form.handleAddClick ready_to_add.

(** The form with a name typed in and its validation outstanding. *)
Definition name_typed : Form.State :=
  Form.handleNameChange "Ann" Form.mount.

(** The same form once the API has answered that the name is taken. *)
Definition name_taken : Form.State :=
  default Form.mount
    (Form.step (Form.EvNameValidated 1 (Form.ApiFulfilled false)) name_typed).

(** The form whose locations could not be fetched. *)
Definition locations_failed : Form.State :=
  Form.with_locationsSettled true
    (Form.fetchLocations_resume (Form.ApiRejected "503") Form.mount).

End Samples.

(** * Properties of the hook *)

Section HookFacts.

Import AsyncValidation.

Variable validateAsync : string → call.

Local Abbreviation run_effect := (run_effect validateAsync).
Local Abbreviation mount := (mount validateAsync).
Local Abbreviation setValue := (setValue validateAsync).
Local Abbreviation initValue := (initValue validateAsync).
Local Abbreviation handleChange := (handleChange validateAsync).
Local Abbreviation step := (step validateAsync).
Local Abbreviation run := (run validateAsync).

(** ** What [validate] does once resumed *)

(** The [try]/[catch]/[finally] statement always completes normally, and
    writes only when the [isMounted] of its own run is still true. *)
Lemma validate_resume_eq id s h :
  validate_resume id s h =
  (if isMounted_of id h
   then with_pending false (with_result (committed s) h)
   else h, inr ()).
Proof.
  unfold validate_resume, try_finally, try_catch, bind, read_isMounted, when.
  destruct s as [r|e]; cbn; destruct (isMounted_of id h) eqn:Hm; cbn;
    unfold isMounted_of in *; cbn; rewrite ?Hm; reflexivity.
Qed.

Lemma settle_eq id s h :
  settle id s h =
  match cycles h !! id with
  | Some c =>
      if settled c then None
      else Some (mark_settled id
                   (if isMounted c
                    then with_pending false (with_result (committed s) h)
                    else h))
  | None => None
  end.
Proof.
  unfold settle. rewrite validate_resume_eq. unfold isMounted_of.
  destruct (cycles h !! id) as [c|]; [|reflexivity].
  destruct (settled c); reflexivity.
Qed.

Lemma run_effect_eq h :
  run_effect h =
  let id := length (cycles h) in
  match validateAsync (value h) with
  | ReturnsPromise =>
      mkHook (value h) (result h) true (mounted h)
             (cycles h ++ [mkCycle (value h) true false]) (Some id)
             (unhandled h)
  | Throws _ =>
      mkHook (value h) EXCEPTION_VALIDATION_RESULT false (mounted h)
             (cycles h ++ [mkCycle (value h) true true]) (Some id)
             (unhandled h)
  end.
Proof.
  unfold run_effect. cbn.
  destruct (validateAsync (value h)) as [|e]; [reflexivity|].
  rewrite validate_resume_eq. unfold isMounted_of, mark_settled. cbn.
  rewrite list_lookup_middle by reflexivity. cbn.
  rewrite alter_app_r_alt by lia. rewrite Nat.sub_diag. reflexivity.
Qed.

(** ** The invariant holds in every reachable state *)

Lemma run_effect_wf h : quiescent h → wf (run_effect h).
Proof.
  intros (Hm & Hu & Hf). rewrite run_effect_eq. cbn.
  destruct (validateAsync (value h)); constructor; cbn; try done.
  all: try (intros i c [[_ Hl]|[-> <-]]%lookup_snoc_Some Hc;
            [rewrite (Hf _ _ Hl) in Hc; discriminate | reflexivity]).
  all: intros i [= <-]; split_and!; try done; [rewrite length_app; cbn; lia|].
  all: eexists; split; [apply list_lookup_middle; reflexivity | done].
Qed.

Lemma run_cleanup_quiescent h :
  wf h → mounted h = true → quiescent (run_cleanup h).
Proof.
  intros [Hf Hc Hm Hu] Hmt. unfold run_cleanup.
  destruct (cleanup h) as [j|] eqn:Hj.
  - split_and!; cbn; try done.
    intros i c. rewrite list_lookup_alter. case_decide as Hij.
    + subst i. destruct (cycles h !! j); cbn; [|done]. by intros [= <-].
    + intros Hl. destruct (isMounted c) eqn:Hic; [|done].
      specialize (Hf _ _ Hl Hic). congruence.
  - split_and!; try done.
    intros i c Hl. destruct (isMounted c) eqn:Hic; [|done].
    specialize (Hf _ _ Hl Hic). congruence.
Qed.

Lemma with_value_quiescent v h : quiescent h → quiescent (with_value v h).
Proof. intros (? & ? & ?). by split_and!. Qed.

Lemma setValue_wf v h : wf h → wf (setValue v h).
Proof.
  intros Hwf. unfold AsyncValidation.setValue.
  destruct (mounted h) eqn:Hm; [|done].
  destruct (String.eqb v (value h)); [done|].
  apply run_effect_wf.
  pose proof (run_cleanup_quiescent h Hwf Hm) as (Hq1 & Hq2 & Hq3).
  unfold run_cleanup in *. cbn.
  destruct (cleanup h); by split_and!.
Qed.

Lemma settle_wf id s h h' : wf h → settle id s h = Some h' → wf h'.
Proof.
  intros [Hf Hc Hm Hu]. rewrite settle_eq.
  destruct (cycles h !! id) as [c|] eqn:Hl; [|done].
  destruct (settled c) eqn:Hs; [done|]. intros [= <-].
  unfold mark_settled.
  destruct (isMounted c) eqn:Hic; cbn.
  - pose proof (Hf _ _ Hl Hic) as Hcl.
    constructor; cbn; try done.
    + intros i c'. rewrite list_lookup_alter. case_decide as Hij; [by subst|].
      intros Hl' Hic'. by apply Hf in Hl'.
    + intros i Hi. assert (i = id) as -> by congruence.
      destruct (Hc _ Hcl) as (? & ? & _). rewrite length_alter.
      split_and!; try done.
      exists (settle_flag c). rewrite list_lookup_alter_eq, Hl. by cbn.
  - constructor; cbn; try done.
    + intros i c'. rewrite list_lookup_alter. case_decide as Hij.
      * subst i. rewrite Hl. cbn. intros [= <-]. cbn. congruence.
      * intros Hl' Hic'. by apply Hf in Hl'.
    + intros i Hi. destruct (Hc _ Hi) as (? & ? & c' & Hl' & Hic' & Hp).
      rewrite length_alter. split_and!; try done.
      exists c'. rewrite list_lookup_alter_ne; [done|].
      intros ->. congruence.
Qed.

Lemma unmount_wf h h' : wf h → unmount h = Some h' → wf h'.
Proof.
  intros Hwf. unfold unmount. destruct (mounted h) eqn:Hm; [|done].
  intros [= <-].
  pose proof (run_cleanup_quiescent h Hwf Hm) as (Hq1 & Hq2 & Hq3).
  constructor; cbn; try done.
  intros i c Hl Hic. rewrite (Hq3 _ _ Hl) in Hic. done.
Qed.

Lemma step_wf ev h h' : wf h → step ev h = Some h' → wf h'.
Proof.
  intros Hwf. destruct ev; cbn.
  - intros [= <-]. by apply setValue_wf.
  - intros [= <-]. by apply setValue_wf.
  - by apply settle_wf.
  - by apply unmount_wf.
Qed.

Lemma mount_wf initialValue : wf (mount initialValue).
Proof. apply run_effect_wf. by split_and!. Qed.

Lemma run_wf evs : ∀ h h', wf h → run evs h = Some h' → wf h'.
Proof.
  induction evs as [|ev evs IH]; cbn; intros h h' Hwf.
  - by intros [= <-].
  - destruct (step ev h) as [h1|] eqn:Hst; [|done].
    intros Hr. eapply IH; [|exact Hr]. by eapply step_wf.
Qed.

Lemma reachable_wf initialValue evs h :
  run evs (mount initialValue) = Some h → wf h.
Proof. apply run_wf, mount_wf. Qed.

(** ** What a value change does *)

Lemma value_run_cleanup h : value (run_cleanup h) = value h.
Proof. unfold run_cleanup. by destruct (cleanup h). Qed.

Lemma cycles_run_cleanup h :
  cycles (run_cleanup h) =
  match cleanup h with
  | Some j => alter unmount_flag j (cycles h)
  | None => cycles h
  end.
Proof. unfold run_cleanup. by destruct (cleanup h). Qed.

Lemma length_cycles_run_cleanup h :
  length (cycles (run_cleanup h)) = length (cycles h).
Proof.
  rewrite cycles_run_cleanup. destruct (cleanup h); [apply length_alter|done].
Qed.

Lemma setValue_same v h : v = value h → setValue v h = h.
Proof.
  intros ->. unfold AsyncValidation.setValue.
  destruct (mounted h); [|done]. by rewrite String.eqb_refl.
Qed.

Lemma setValue_changed v h :
  mounted h = true → v ≠ value h →
  setValue v h = run_effect (run_cleanup (with_value v h)).
Proof.
  intros Hm Hne. unfold AsyncValidation.setValue.
  rewrite Hm. by apply String.eqb_neq in Hne as ->.
Qed.

Lemma value_run_effect h : value (run_effect h) = value h.
Proof. rewrite run_effect_eq. cbn. by destruct (validateAsync (value h)). Qed.

Lemma cycles_run_effect h :
  ∃ c, cycles (run_effect h) = cycles h ++ [c] ∧ input c = value h.
Proof.
  rewrite run_effect_eq. cbn.
  destruct (validateAsync (value h)); cbn; by eexists.
Qed.

Lemma value_setValue v h : mounted h = true → value (setValue v h) = v.
Proof.
  intros Hm. destruct (decide (v = value h)) as [Heq|Hne].
  - by rewrite setValue_same.
  - rewrite setValue_changed by done.
    by rewrite value_run_effect, value_run_cleanup.
Qed.

(** A value change settles no promise: every run that was outstanding
    still is. *)
Lemma outstanding_setValue v h id :
  outstanding id h = true → outstanding id (setValue v h) = true.
Proof.
  intros Ho. unfold AsyncValidation.setValue.
  destruct (mounted h); [|done].
  destruct (String.eqb v (value h)); [done|].
  unfold outstanding in *.
  destruct (cycles h !! id) as [c|] eqn:Hl; [|done].
  destruct (cycles_run_effect (run_cleanup (with_value v h))) as (c' & -> & _).
  rewrite lookup_app_l
    by (rewrite length_cycles_run_cleanup; cbn; by eapply lookup_lt_Some).
  rewrite cycles_run_cleanup. cbn.
  destruct (cleanup h) as [j|]; [|by rewrite Hl].
  rewrite list_lookup_alter. case_decide; [subst j|]; by rewrite Hl.
Qed.

(** ** Which settlements commit *)

(** A run that may still commit is the last one of a mounted component. *)
Lemma flag_latest h id c :
  wf h → cycles h !! id = Some c → isMounted c = true →
  mounted h = true ∧ latest id h = true.
Proof.
  intros [Hf Hc _ _] Hl Hic. destruct (Hc _ (Hf _ _ Hl Hic)) as (? & ? & _).
  split; [done|]. by apply Nat.eqb_eq.
Qed.

(** The last run of a mounted component may still commit. *)
Lemma latest_flag h id c :
  wf h → mounted h = true → latest id h = true → cycles h !! id = Some c →
  isMounted c = true ∧ pending h = negb (settled c).
Proof.
  intros [Hf Hc Hm _] Hmt Hlat%Nat.eqb_eq Hl.
  destruct (Hm Hmt) as [j Hj].
  destruct (Hc _ Hj) as (_ & Hlen & c' & Hl' & ? & ?).
  assert (j = id) as -> by lia. by simplify_eq.
Qed.

Lemma settle_discard h id s h' :
  wf h → settle id s h = Some h' →
  mounted h = false ∨ latest id h = false →
  h' = mark_settled id h.
Proof.
  intros Hwf. rewrite settle_eq.
  destruct (cycles h !! id) as [c|] eqn:Hl; [|done].
  destruct (settled c); [done|]. intros [= <-] Hor.
  destruct (isMounted c) eqn:Hic; [|done].
  destruct (flag_latest _ _ _ Hwf Hl Hic). destruct Hor; congruence.
Qed.

Lemma settle_commit h id s h' :
  wf h → settle id s h = Some h' →
  mounted h = true → latest id h = true →
  h' = mark_settled id (with_pending false (with_result (committed s) h)).
Proof.
  intros Hwf. rewrite settle_eq.
  destruct (cycles h !! id) as [c|] eqn:Hl; [|done].
  destruct (settled c); [done|]. intros [= <-] Hmt Hlat.
  by destruct (latest_flag _ _ _ Hwf Hmt Hlat Hl) as [-> _].
Qed.

Lemma superseded_not_latest id h : superseded id h = true → latest id h = false.
Proof.
  intros ?%Nat.ltb_lt. apply Nat.eqb_neq. lia.
Qed.

(** Once unmounted, a component stays unmounted and its exposed state
    stays as it is, whatever happens. *)
Lemma step_unmounted ev h h' :
  wf h → mounted h = false → step ev h = Some h' →
  mounted h' = false ∧ value h' = value h ∧ result h' = result h ∧
  pending h' = pending h.
Proof.
  intros Hwf Hm. destruct ev; cbn.
  1,2: unfold AsyncValidation.initValue, AsyncValidation.handleChange,
         AsyncValidation.setValue; rewrite Hm; by intros [= <-].
  - intros Hs. by rewrite (settle_discard _ _ _ _ Hwf Hs (or_introl Hm)).
  - unfold unmount. by rewrite Hm.
Qed.

Lemma run_unmounted evs : ∀ h h',
  wf h → mounted h = false → run evs h = Some h' →
  value h' = value h ∧ result h' = result h ∧ pending h' = pending h.
Proof.
  induction evs as [|ev evs IH]; cbn; intros h h' Hwf Hm.
  - by intros [= <-].
  - destruct (step ev h) as [h1|] eqn:Hst; [|done]. intros Hr.
    destruct (step_unmounted _ _ _ Hwf Hm Hst) as (Hm1 & <- & <- & <-).
    eapply IH; [|done..]. by eapply step_wf.
Qed.

(** ** The claims about the hook *)

(** C1. Last started cycle wins: in any state reached from the mount by
    value changes, settlements (in any order) and an unmount, the
    settlement of a cycle after which a later cycle has started commits
    nothing: [result] (and with it [pending] and [value]) stays as it
    was.  Hence only the most recently started cycle can replace
    [result]. *)
Theorem stale_settlement_never_commits initialValue evs h id s h' :
  run evs (mount initialValue) = Some h →
  superseded id h = true →
  step (EvSettle id s) h = Some h' →
  result h' = result h ∧ pending h' = pending h ∧ value h' = value h.
Proof.
  intros Hr Hsup Hs. apply reachable_wf in Hr. cbn in Hs.
  by rewrite (settle_discard _ _ _ _ Hr Hs
                (or_intror (superseded_not_latest _ _ Hsup))).
Qed.


(** C3. No write after teardown: when the component is unmounted in a
    reachable state, then whatever happens afterwards (the outstanding
    promises fulfil or reject, in any order; stale callbacks are called)
    [value], [result] and [pending] stay exactly as they were at the
    unmount. *)
Theorem no_write_after_unmount initialValue evs h h0 evs' h' :
  run evs (mount initialValue) = Some h →
  unmount h = Some h0 →
  run evs' h0 = Some h' →
  value h' = value h ∧ result h' = result h ∧ pending h' = pending h.
Proof.
  intros Hr%reachable_wf Hu Hr'.
  pose proof (unmount_wf _ _ Hr Hu) as Hwf0.
  assert (mounted h0 = false ∧ value h0 = value h ∧ result h0 = result h ∧
          pending h0 = pending h) as (Hm0 & <- & <- & <-).
  { unfold unmount in Hu. destruct (mounted h); [|done].
    injection Hu as <-. cbn. unfold run_cleanup.
    by destruct (cleanup h). }
  by eapply run_unmounted.
Qed.

(** C4. When the validation function fails for the active cycle (the
    promise of the most recently started cycle of a mounted component
    rejects with [e], or the call for a new value throws [e]), [result]
    becomes exactly [EXCEPTION_VALIDATION_RESULT] and [pending] false;
    the error is caught ([validate] completes normally and nothing is
    left unhandled), and the exposed message is the fixed text, whatever
    [e] is. *)
Theorem failure_gives_generic_result initialValue evs h id v e h' :
  run evs (mount initialValue) = Some h →
  mounted h = true →
  (latest id h = true ∧ step (EvSettle id (Rejected e)) h = Some h') ∨
  (v ≠ value h ∧ validateAsync v = Throws e ∧
   step (EvHandleChange v) h = Some h') →
  result h' = EXCEPTION_VALIDATION_RESULT ∧
  pending h' = false ∧
  hr_isValid (render h') = false ∧
  hr_message (render h') =
    "An error occurred while validating. Try again later." ∧
  snd (validate_resume id (Rejected e) h) = inr () ∧
  unhandled h' = [].
Proof.
  intros Hr%reachable_wf Hmt Hcase.
  assert (wf h') as Hwf'.
  { destruct Hcase as [[_ Hs]|(_ & _ & Hs)]; by eapply step_wf. }
  assert (result h' = EXCEPTION_VALIDATION_RESULT ∧ pending h' = false)
    as [Hres Hp].
  { destruct Hcase as [[Hlat Hs]|(Hne & Hth & Hs)]; cbn in Hs.
    - by rewrite (settle_commit _ _ _ _ Hr Hs Hmt Hlat).
    - injection Hs as <-. unfold AsyncValidation.handleChange.
      rewrite setValue_changed by done. rewrite run_effect_eq. cbn.
      rewrite value_run_cleanup. cbn. by rewrite Hth. }
  split_and!; try done.
  - unfold render. cbn. by rewrite Hres.
  - unfold render. cbn. by rewrite Hres.
  - by rewrite validate_resume_eq.
  - by destruct Hwf'.
Qed.

(** C5. When the promise of the active cycle (the most recently started
    one, of a mounted component) fulfils with [r], [result] becomes
    exactly [r]; in particular for [r = {isValid: true, message: ""}]
    the hook then exposes [isValid = true] and [message = ""]. *)
Theorem success_commits_returned_result initialValue evs h id r h' :
  run evs (mount initialValue) = Some h →
  mounted h = true →
  latest id h = true →
  step (EvSettle id (Fulfilled r)) h = Some h' →
  result h' = r ∧
  hr_isValid (render h') = isValid r ∧
  hr_message (render h') = message r ∧
  pending h' = false ∧
  (r = mkResult true "" →
   hr_isValid (render h') = true ∧ hr_message (render h') = "").
Proof.
  intros Hr%reachable_wf Hmt Hlat Hs. cbn in Hs.
  rewrite (settle_commit _ _ _ _ Hr Hs Hmt Hlat). cbn.
  split_and!; try done. by intros ->.
Qed.

(** C6, as amended. A mutator schedules the update of the value.  Right
    after [initValue v] or [handleChange v] on a mounted component the
    render in which the call was made still exposes what it exposed
    before; the next render exposes [v] as [value], and no validation
    has settled in between (every outstanding cycle is still
    outstanding).  Call and render together are the transition
    [setValue]. *)
Theorem mutators_schedule_value_update v i :
  mounted (current i) = true →
  exposed (call_initValue v i) = exposed i ∧
  exposed (call_handleChange v i) = exposed i ∧
  hr_value (exposed (rerender validateAsync (call_initValue v i))) = v ∧
  hr_value (exposed (rerender validateAsync (call_handleChange v i))) = v ∧
  current (rerender validateAsync (call_initValue v i)) = initValue v (current i) ∧
  current (rerender validateAsync (call_handleChange v i))
    = handleChange v (current i) ∧
  (∀ id, outstanding id (current i) = true →
     outstanding id
       (current (rerender validateAsync (call_initValue v i))) = true ∧
     outstanding id
       (current (rerender validateAsync (call_handleChange v i))) = true).
Proof.
  intros Hm.
  unfold AsyncValidation.rerender, call_initValue, call_handleChange, exposed,
    AsyncValidation.initValue, AsyncValidation.handleChange.
  cbn. rewrite last_snoc. cbn. rewrite value_setValue by done.
  split_and!; try done. intros id Ho. by rewrite outstanding_setValue.
Qed.

(** C7, as amended. A cycle starts when the value changes: on a mounted
    component the second of two [handleChange v] calls in a row finds
    the dependency list unchanged and does nothing, so the two calls
    start one cycle when [v] differs from the value before them and
    none when it does not. *)
Theorem identical_reset_starts_no_cycle v h :
  mounted h = true →
  handleChange v (handleChange v h) = handleChange v h ∧
  length (cycles (handleChange v (handleChange v h))) =
    length (cycles h) + (if String.eqb v (value h) then 0 else 1).
Proof.
  intros Hm. unfold AsyncValidation.handleChange.
  assert (setValue v (setValue v h) = setValue v h) as ->.
  { apply setValue_same. by rewrite value_setValue. }
  split; [done|]. destruct (String.eqb_spec v (value h)) as [Hv|Hv].
  - rewrite setValue_same by done. lia.
  - rewrite setValue_changed by done.
    destruct (cycles_run_effect (run_cleanup (with_value v h))) as (c & -> & _).
    rewrite length_app, length_cycles_run_cleanup. cbn. lia.
Qed.

(** C8, as amended. The state created for the first render is exactly
    [(initialValue, {isValid: true, message: ""}, pending: false)]; the
    mount effect then starts a validation cycle for [initialValue]
    without any mutator being called, which leaves [value] and, when the
    validation function returns a promise, [result] as they were but
    sets [pending] to true (when the call throws, the cycle ends at once
    with the generic failure result and [pending] false). *)
Theorem mount_state initialValue :
  render (useState_init initialValue) =
    mkHookResult initialValue true "" false ∧
  render (mount initialValue) =
    match validateAsync initialValue with
    | ReturnsPromise => mkHookResult initialValue true "" true
    | Throws _ =>
        mkHookResult initialValue false
          "An error occurred while validating. Try again later." false
    end.
Proof.
  split; [done|]. unfold AsyncValidation.mount. rewrite run_effect_eq. cbn.
  by destruct (validateAsync initialValue).
Qed.

End HookFacts.

(** * Properties of the form *)

Section FormFacts.

Import AsyncValidation Form.

Lemma length_pos_nonempty (v : string) : 0 < String.length v → v ≠ "".
Proof. intros Hlen ->. cbn in Hlen. lia. Qed.

(** What [canAdd] guarantees about the row that would be added. *)
Lemma canAdd_filled s :
  canAdd s = true →
  hr_isValid (render (nameValidation s)) = true ∧
  filled (DataItem.mk (hr_value (render (nameValidation s))) (location s)).
Proof.
  unfold canAdd. intros [[Hv Hn%Nat.ltb_lt]%andb_true_iff
                          Hl%Nat.ltb_lt]%andb_true_iff.
  split; [done|]. split; cbn; by apply length_pos_nonempty.
Qed.

Lemma items_handleClearClick s : items (handleClearClick s) = items s.
Proof. reflexivity. Qed.

Lemma items_handleAddClick s :
  items (handleAddClick s) =
  if canAdd s
  then items s ++ [DataItem.mk (hr_value (render (nameValidation s)))
                               (location s)]
  else items s.
Proof. unfold handleAddClick. by destruct (canAdd s). Qed.

(** Only the Add button changes the table, and only by one filled row
    at the end. *)
Lemma step_items ev s s' :
  step ev s = Some s' →
  items s' = items s ∨
  (ev = EvAddClick ∧ canAdd s = true ∧
   ∃ it, filled it ∧ items s' = items s ++ [it]).
Proof.
  destruct ev; cbn.
  - intros [= <-]. left. by destruct (mounted (nameValidation s)).
  - intros [= <-]. left. by destruct (mounted (nameValidation s)).
  - intros [= <-]. left. by destruct (mounted (nameValidation s)).
  - intros [= <-]. destruct (mounted (nameValidation s)); [|by left].
    rewrite items_handleAddClick.
    destruct (canAdd s) eqn:Hc; [|by left].
    right. split_and!; try done. eexists. split; [|done].
    by apply canAdd_filled.
  - destruct (settle _ _ _); cbn; [|done]. intros [= <-]. by left.
  - destruct (locationsSettled s); [done|]. intros [= <-]. left.
    destruct (mounted (nameValidation s)); [|done]. by destruct r.
  - destruct (unmount _); cbn; [|done]. intros [= <-]. by left.
Qed.

Lemma step_filled ev s s' :
  Forall filled (items s) → step ev s = Some s' → Forall filled (items s').
Proof.
  intros Hall [->|(_ & _ & it & Hit & ->)]%step_items; [done|].
  apply Forall_app. split; [done|]. by apply Forall_singleton.
Qed.

Lemma run_filled evs : ∀ s s',
  Forall filled (items s) → run evs s = Some s' → Forall filled (items s').
Proof.
  induction evs as [|ev evs IH]; cbn; intros s s' Hall.
  - by intros [= <-].
  - destruct (step ev s) as [s1|] eqn:Hst; [|done].
    apply IH. by eapply step_filled.
Qed.

(** C9. In every state the form reaches from its mount, every row of the
    table has a non-empty name and a non-empty location; and from such a
    state every operation either leaves the table as it is or is the Add
    click with [canAdd] true, which appends one filled row. *)
Theorem items_always_filled evs s :
  run evs mount = Some s →
  Forall filled (items s) ∧
  (∀ ev s', step ev s = Some s' →
     items s' = items s ∨
     (ev = EvAddClick ∧ canAdd s = true ∧
      ∃ it, filled it ∧ items s' = items s ++ [it])).
Proof.
  intros Hr. split.
  - eapply run_filled; [|exact Hr]. by apply Forall_nil.
  - intros ev s'. apply step_items.
Qed.

(** C10. On the mounted form, [handleAddClick] with [canAdd] true
    appends exactly the row [{name: value, location}] after the rows
    already there and resets the name value and the location to [""];
    with [canAdd] false it changes nothing at all. *)
Theorem handleAddClick_effect s :
  mounted (nameValidation s) = true →
  if canAdd s then
    items (handleAddClick s) =
      items s ++ [DataItem.mk (hr_value (render (nameValidation s)))
                              (location s)] ∧
    hr_value (render (nameValidation (handleAddClick s))) = "" ∧
    location (handleAddClick s) = ""
  else handleAddClick s = s.
Proof.
  intros Hm. rewrite items_handleAddClick. unfold handleAddClick.
  destruct (canAdd s); [|done].
  split_and!; try done. cbn.
  unfold initValue. by rewrite value_setValue.
Qed.

End FormFacts.

(** * The statements on the sample runs *)

Section Witnesses.

Import AsyncValidation Samples.

Local Abbreviation va := Form.isNameValidWrapper.
Local Abbreviation taken := (mkResult false "this name has already been taken").

Lemma stale_settlement_never_commits_witness :
  run va [EvHandleChange "a"; EvHandleChange "ab"] (mount va "")
    = Some typed_twice ∧
  superseded 1 typed_twice = true ∧
  step va (EvSettle 1 (Fulfilled taken)) typed_twice
    = Some (mark_settled 1 typed_twice) ∧
  (result (mark_settled 1 typed_twice) = result typed_twice ∧
   pending (mark_settled 1 typed_twice) = pending typed_twice ∧
   value (mark_settled 1 typed_twice) = value typed_twice).
Proof.
  split; [vm_compute; reflexivity|].
  split; [vm_compute; reflexivity|].
  split; [vm_compute; reflexivity|].
  apply (stale_settlement_never_commits va ""
           [EvHandleChange "a"; EvHandleChange "ab"] typed_twice 1
           (Fulfilled taken) (mark_settled 1 typed_twice));
    vm_compute; reflexivity.
Defined.


Lemma no_write_after_unmount_witness :
  run va [EvHandleChange "a"; EvHandleChange "ab"] (mount va "")
    = Some typed_twice ∧
  unmount typed_twice = Some torn_down ∧
  run va [EvSettle 2 (Fulfilled taken); EvSettle 0 (Rejected "timeout");
          EvInitValue "zz"] torn_down
    = Some (mark_settled 0 (mark_settled 2 torn_down)) ∧
  (value (mark_settled 0 (mark_settled 2 torn_down)) = value typed_twice ∧
   result (mark_settled 0 (mark_settled 2 torn_down)) = result typed_twice ∧
   pending (mark_settled 0 (mark_settled 2 torn_down)) = pending typed_twice).
Proof.
  split; [vm_compute; reflexivity|].
  split; [vm_compute; reflexivity|].
  split; [vm_compute; reflexivity|].
  apply (no_write_after_unmount va ""
           [EvHandleChange "a"; EvHandleChange "ab"] typed_twice torn_down
           [EvSettle 2 (Fulfilled taken); EvSettle 0 (Rejected "timeout");
            EvInitValue "zz"]
           (mark_settled 0 (mark_settled 2 torn_down)));
    vm_compute; reflexivity.
Defined.

Lemma failure_gives_generic_result_witness :
  let h' := mark_settled 2 (with_pending false
              (with_result EXCEPTION_VALIDATION_RESULT typed_twice)) in
  run va [EvHandleChange "a"; EvHandleChange "ab"] (mount va "")
    = Some typed_twice ∧
  mounted typed_twice = true ∧
  (latest 2 typed_twice = true ∧
   step va (EvSettle 2 (Rejected "ECONNRESET")) typed_twice = Some h') ∧
  (result h' = EXCEPTION_VALIDATION_RESULT ∧
   pending h' = false ∧
   hr_isValid (render h') = false ∧
   hr_message (render h') =
     "An error occurred while validating. Try again later." ∧
   snd (validate_resume 2 (Rejected "ECONNRESET") typed_twice) = inr () ∧
   unhandled h' = []).
Proof.
  cbv zeta.
  split; [vm_compute; reflexivity|].
  split; [vm_compute; reflexivity|].
  split; [split; vm_compute; reflexivity|].
  apply (failure_gives_generic_result va ""
           [EvHandleChange "a"; EvHandleChange "ab"] typed_twice 2 ""
           "ECONNRESET");
    [vm_compute; reflexivity | vm_compute; reflexivity |].
  left. split; vm_compute; reflexivity.
Defined.

Lemma success_commits_returned_result_witness :
  let h' := mark_settled 2 (with_pending false
              (with_result (mkResult true "") typed_twice)) in
  run va [EvHandleChange "a"; EvHandleChange "ab"] (mount va "")
    = Some typed_twice ∧
  mounted typed_twice = true ∧
  latest 2 typed_twice = true ∧
  step va (EvSettle 2 (Fulfilled (mkResult true ""))) typed_twice = Some h' ∧
  (result h' = mkResult true "" ∧
   hr_isValid (render h') = true ∧
   hr_message (render h') = "" ∧
   pending h' = false ∧
   (mkResult true "" = mkResult true "" →
    hr_isValid (render h') = true ∧ hr_message (render h') = "")).
Proof.
  cbv zeta.
  split; [vm_compute; reflexivity|].
  split; [vm_compute; reflexivity|].
  split; [vm_compute; reflexivity|].
  split; [vm_compute; reflexivity|].
  apply (success_commits_returned_result va ""
           [EvHandleChange "a"; EvHandleChange "ab"] typed_twice 2
           (mkResult true "")); vm_compute; reflexivity.
Defined.

Lemma mutators_schedule_value_update_witness :
  mounted (current (mkInstance just_mounted [])) = true ∧
  (exposed (call_initValue "seed" (mkInstance just_mounted []))
     = exposed (mkInstance just_mounted []) ∧
   exposed (call_handleChange "seed" (mkInstance just_mounted []))
     = exposed (mkInstance just_mounted []) ∧
   hr_value (exposed (rerender va (call_initValue "seed"
                                     (mkInstance just_mounted [])))) = "seed" ∧
   hr_value (exposed (rerender va (call_handleChange "seed"
                                     (mkInstance just_mounted [])))) = "seed" ∧
   current (rerender va (call_initValue "seed" (mkInstance just_mounted [])))
     = initValue va "seed" (current (mkInstance just_mounted [])) ∧
   current (rerender va (call_handleChange "seed"
                           (mkInstance just_mounted [])))
     = handleChange va "seed" (current (mkInstance just_mounted [])) ∧
   (∀ id, outstanding id (current (mkInstance just_mounted [])) = true →
      outstanding id
        (current (rerender va (call_initValue "seed"
                                 (mkInstance just_mounted [])))) = true ∧
      outstanding id
        (current (rerender va (call_handleChange "seed"
                                 (mkInstance just_mounted [])))) = true)).
Proof.
  split; [vm_compute; reflexivity|].
  apply (mutators_schedule_value_update va "seed"
           (mkInstance just_mounted [])).
  vm_compute; reflexivity.
Defined.

(** C6, as stated, fails: right after [initValue "seed"] on the freshly
    mounted hook, the value that the caller reads is still [""]; the
    same holds for [handleChange "seed"]. *)
Lemma mutators_update_value_counterexample :
  hr_value (exposed (call_initValue "seed" (mkInstance just_mounted [])))
    = "" ∧
  hr_value (exposed (call_initValue "seed" (mkInstance just_mounted [])))
    ≠ "seed" ∧
  hr_value (exposed (call_handleChange "seed" (mkInstance just_mounted [])))
    ≠ "seed".
Proof.
  split; [vm_compute; reflexivity|].
  split; vm_compute; discriminate.
Qed.

Lemma identical_reset_starts_no_cycle_witness :
  mounted just_mounted = true ∧
  (handleChange va "a" (handleChange va "a" just_mounted)
     = handleChange va "a" just_mounted ∧
   length (cycles (handleChange va "a" (handleChange va "a" just_mounted)))
     = length (cycles just_mounted) +
       (if String.eqb "a" (value just_mounted) then 0 else 1)).
Proof.
  split; [vm_compute; reflexivity|].
  apply (identical_reset_starts_no_cycle va "a" just_mounted).
  vm_compute; reflexivity.
Defined.

(** C7, as stated, fails: two [handleChange "a"] calls in a row on the
    freshly mounted hook start one validation cycle, not two. *)
Lemma identical_reset_counterexample :
  length (cycles (handleChange va "a" (handleChange va "a" just_mounted)))
    = length (cycles just_mounted) + 1 ∧
  length (cycles (handleChange va "a" (handleChange va "a" just_mounted)))
    ≠ length (cycles just_mounted) + 2.
Proof. split; [vm_compute; reflexivity|]. vm_compute. lia. Qed.

(** C8, as stated, fails: once the hook is mounted with ["seed"], and
    before any mutator is called, a validation is pending. *)
Lemma mount_state_counterexample :
  hr_pending (render (mount va "seed")) = true ∧
  render (mount va "seed") ≠ mkHookResult "seed" true "" false.
Proof. split; [vm_compute; reflexivity|]. vm_compute. discriminate. Qed.

Lemma items_always_filled_witness :
  Form.run [Form.EvNameChange "Ann";
            Form.EvNameValidated 1 (Form.ApiFulfilled true);
            Form.EvLocationSelect (Some "Canada");
            Form.EvAddClick] Form.mount = Some one_row ∧
  (Forall Form.filled (Form.items one_row) ∧
   (∀ ev s', Form.step ev one_row = Some s' →
      Form.items s' = Form.items one_row ∨
      (ev = Form.EvAddClick ∧ Form.canAdd one_row = true ∧
       ∃ it, Form.filled it ∧
             Form.items s' = Form.items one_row ++ [it]))).
Proof.
  split; [vm_compute; reflexivity|].
  apply (items_always_filled
           [Form.EvNameChange "Ann";
            Form.EvNameValidated 1 (Form.ApiFulfilled true);
            Form.EvLocationSelect (Some "Canada");
            Form.EvAddClick] one_row).
  vm_compute; reflexivity.
Defined.

Lemma handleAddClick_effect_witness :
  mounted (Form.nameValidation ready_to_add) = true ∧
  Form.canAdd ready_to_add = true ∧
  Form.items one_row = [DataItem.mk "Ann" "Canada"] ∧
  (if Form.canAdd ready_to_add then
     Form.items (Form.handleAddClick ready_to_add) =
       Form.items ready_to_add ++
       [DataItem.mk (hr_value (render (Form.nameValidation ready_to_add)))
                    (Form.location ready_to_add)] ∧
     hr_value (render (Form.nameValidation
                         (Form.handleAddClick ready_to_add))) = "" ∧
     Form.location (Form.handleAddClick ready_to_add) = ""
   else Form.handleAddClick ready_to_add = ready_to_add).
Proof.
  split; [vm_compute; reflexivity|].
  split; [vm_compute; reflexivity|].
  split; [vm_compute; reflexivity|].
  apply (handleAddClick_effect ready_to_add). vm_compute; reflexivity.
Defined.

End Witnesses.

(** * Further properties of the hook *)

Section HookHistory.

Import AsyncValidation.

Variable validateAsync : string → call.

Local Abbreviation setValue := (setValue validateAsync).
Local Abbreviation handleChange := (handleChange validateAsync).
Local Abbreviation step := (step validateAsync).
Local Abbreviation run := (run validateAsync).
Local Abbreviation mount := (mount validateAsync).

(** ** What each transition does to the list of runs *)

Lemma evolves_refl c : evolves c c.
Proof. by split_and!. Qed.

Lemma evolves_trans c1 c2 c3 : evolves c1 c2 → evolves c2 c3 → evolves c1 c3.
Proof.
  intros (Hi1 & Hm1 & Hs1) (Hi2 & Hm2 & Hs2).
  split_and!; [congruence | auto | auto].
Qed.

Lemma evolves_unmount_flag c : evolves c (unmount_flag c).
Proof. by split_and!. Qed.

Lemma evolves_settle_flag c : evolves c (settle_flag c).
Proof. by split_and!. Qed.

Lemma lookup_alter_evolves f (l : list Cycle) j id c :
  (∀ x, evolves x (f x)) → l !! id = Some c →
  ∃ c', alter f j l !! id = Some c' ∧ evolves c c'.
Proof.
  intros Hf Hl. rewrite list_lookup_alter. case_decide as Hj.
  - subst j. rewrite Hl. cbn. eauto.
  - exists c. split; [done|apply evolves_refl].
Qed.

Lemma cycles_settle id s h h' :
  settle id s h = Some h' →
  cycles h' = alter settle_flag id (cycles h) ∧ value h' = value h.
Proof.
  rewrite settle_eq. destruct (cycles h !! id) as [c|]; [|done].
  destruct (settled c); [done|]. intros [= <-].
  by destruct (isMounted c).
Qed.

Lemma cycles_unmount h h' :
  unmount h = Some h' →
  cycles h' = cycles (run_cleanup h) ∧ value h' = value h.
Proof.
  unfold unmount. destruct (mounted h); [|done]. intros [= <-]. cbn.
  by rewrite value_run_cleanup.
Qed.

Lemma cycles_setValue v h :
  setValue v h = h ∨
  ∃ c, cycles (setValue v h) = cycles (run_cleanup h) ++ [c] ∧
       input c = v ∧ value (setValue v h) = v.
Proof.
  unfold AsyncValidation.setValue. destruct (mounted h); [|by left].
  destruct (String.eqb v (value h)); [by left|]. right.
  destruct (cycles_run_effect validateAsync (run_cleanup (with_value v h)))
    as (c & Hc & Hi).
  exists c. rewrite Hc, value_run_effect, value_run_cleanup in *.
  split_and!; try done. f_equal. rewrite !cycles_run_cleanup. done.
Qed.

Lemma lookup_run_cleanup_evolves h id c :
  cycles h !! id = Some c →
  ∃ c', cycles (run_cleanup h) !! id = Some c' ∧ evolves c c'.
Proof.
  intros Hl. rewrite cycles_run_cleanup. destruct (cleanup h) as [j|].
  - by apply lookup_alter_evolves; [apply evolves_unmount_flag|].
  - exists c. split; [done|apply evolves_refl].
Qed.

Lemma step_evolves ev h h' id c :
  step ev h = Some h' → cycles h !! id = Some c →
  ∃ c', cycles h' !! id = Some c' ∧ evolves c c'.
Proof.
  intros Hs Hl.
  assert (∀ v, ∃ c', cycles (setValue v h) !! id = Some c' ∧ evolves c c')
    as Hset.
  { intros v. destruct (cycles_setValue v h) as [->|(c0 & -> & _)].
    - exists c. split; [done|apply evolves_refl].
    - destruct (lookup_run_cleanup_evolves _ _ _ Hl) as (c' & Hl' & Hev).
      exists c'. split; [|done].
      rewrite lookup_app_l; [done|]. by eapply lookup_lt_Some. }
  destruct ev; cbn in Hs.
  - injection Hs as <-. apply Hset.
  - injection Hs as <-. apply Hset.
  - apply cycles_settle in Hs as [-> _].
    by apply lookup_alter_evolves; [apply evolves_settle_flag|].
  - apply cycles_unmount in Hs as [-> _].
    by apply lookup_run_cleanup_evolves.
Qed.

(** ** The last run is the run for the current value *)

Lemma last_for_value_alter f j h h' :
  (∀ x, input (f x) = input x) →
  cycles h' = alter f j (cycles h) → value h' = value h →
  last_for_value h → last_for_value h'.
Proof.
  intros Hf Hc Hv Hinv id c. unfold latest. rewrite Hc, Hv, length_alter.
  intros Hlat. rewrite list_lookup_alter. case_decide as Hj.
  - subst j. destruct (cycles h !! id) as [c0|] eqn:Hl; [|done].
    cbn. intros [= <-]. rewrite Hf. by eapply Hinv.
  - by apply Hinv.
Qed.

Lemma step_last_for_value ev h h' :
  step ev h = Some h' → last_for_value h → last_for_value h'.
Proof.
  intros Hs Hinv.
  assert (∀ v, last_for_value (setValue v h)) as Hset.
  { intros v. destruct (cycles_setValue v h) as [->|(c0 & Hc & Hi & Hv)];
      [done|].
    intros id c. unfold latest. rewrite Hc, Hv, length_app.
    intros Hlat%Nat.eqb_eq. cbn in Hlat.
    rewrite lookup_app_r by lia.
    replace (id - length (cycles (run_cleanup h))) with 0 by lia.
    cbn. by intros [= <-]. }
  destruct ev; cbn in Hs.
  - injection Hs as <-. apply Hset.
  - injection Hs as <-. apply Hset.
  - apply cycles_settle in Hs as [Hc Hv].
    by eapply last_for_value_alter; [| exact Hc | exact Hv |].
  - apply cycles_unmount in Hs as [Hc Hv].
    rewrite cycles_run_cleanup in Hc. destruct (cleanup h) as [j|].
    + by eapply last_for_value_alter; [| exact Hc | exact Hv |].
    + intros id c. unfold latest. rewrite Hc, Hv. apply Hinv.
Qed.

Lemma mount_last_for_value initialValue : last_for_value (mount initialValue).
Proof.
  intros id c. unfold AsyncValidation.mount, latest.
  rewrite value_run_effect.
  destruct (cycles_run_effect validateAsync (useState_init initialValue))
    as (c0 & -> & Hi).
  intros Hlat%Nat.eqb_eq. cbn in Hlat. injection Hlat as ->.
  cbn. by intros [= <-].
Qed.

Lemma run_last_for_value evs : ∀ h h',
  run evs h = Some h' → last_for_value h → last_for_value h'.
Proof.
  induction evs as [|ev evs IH]; cbn; intros h h'.
  - by intros [= <-].
  - destruct (step ev h) as [h1|] eqn:Hst; [|done].
    intros Hr Hinv. eapply IH; [exact Hr|]. by eapply step_last_for_value.
Qed.

(** X1. In every state reached from the mount, the most recently started
    cycle is the one that validates the current value: its input is
    [value].  So a result committed by that cycle is a result for the
    value the hook exposes. *)
Theorem latest_cycle_validates_current_value initialValue evs h id c :
  run evs (mount initialValue) = Some h →
  latest id h = true →
  cycles h !! id = Some c →
  input c = value h.
Proof.
  intros Hr Hlat Hl.
  by eapply (run_last_for_value _ _ _ Hr (mount_last_for_value _)).
Qed.

(** X2. The history of cycles is append-only.  Along any run, a cycle
    keeps its id and its input; its [isMounted] flag, once cleared, is
    never set again (a superseded cycle never regains the right to
    commit), and its promise, once settled, stays settled. *)
Theorem cycles_are_append_only evs : ∀ h h' id c,
  run evs h = Some h' →
  cycles h !! id = Some c →
  ∃ c', cycles h' !! id = Some c' ∧
        input c' = input c ∧
        (isMounted c' = true → isMounted c = true) ∧
        (settled c = true → settled c' = true).
Proof.
  induction evs as [|ev evs IH]; cbn; intros h h' id c.
  - intros [= <-] Hl. exists c. by split_and!.
  - destruct (step ev h) as [h1|] eqn:Hst; [|done]. intros Hr Hl.
    destruct (step_evolves _ _ _ _ _ Hst Hl) as (c1 & Hl1 & Hev1).
    destruct (IH _ _ _ _ Hr Hl1) as (c' & Hl' & Hev').
    exists c'. split; [done|]. by apply (evolves_trans c c1 c').
Qed.

(** A changed value, with a validation function that returns its
    promise: the new run is appended, unsettled, and only [value] and
    [pending] are written. *)
Lemma handleChange_async v h :
  mounted h = true → v ≠ value h → validateAsync v = ReturnsPromise →
  result (handleChange v h) = result h ∧
  value (handleChange v h) = v ∧
  pending (handleChange v h) = true ∧
  length (cycles (handleChange v h)) = S (length (cycles h)) ∧
  cycles (handleChange v h) !! length (cycles h) = Some (mkCycle v true false).
Proof.
  intros Hm Hne Hva. unfold AsyncValidation.handleChange.
  rewrite setValue_changed by done. rewrite run_effect_eq. cbn.
  rewrite value_run_cleanup. cbn. rewrite Hva. cbn.
  assert (length (cycles (run_cleanup (with_value v h))) = length (cycles h))
    as Hlen by by rewrite length_cycles_run_cleanup.
  rewrite length_app, Hlen. cbn.
  rewrite list_lookup_middle by done.
  split_and!; try done; try lia.
  unfold run_cleanup. cbn. by destruct (cleanup h).
Qed.

(** X3. A value change does not reset the result.  When the value of a
    mounted hook changes and the validation function returns its
    promise, the hook keeps exposing the previous [result] (validity and
    message of an earlier value) while [pending] is true and the new
    cycle, the last one, is outstanding. *)
Theorem value_change_keeps_previous_result v h :
  mounted h = true →
  v ≠ value h →
  validateAsync v = ReturnsPromise →
  result (handleChange v h) = result h ∧
  value (handleChange v h) = v ∧
  pending (handleChange v h) = true ∧
  length (cycles (handleChange v h)) = S (length (cycles h)) ∧
  outstanding (length (cycles h)) (handleChange v h) = true.
Proof.
  intros Hm Hne Hva.
  destruct (handleChange_async v h Hm Hne Hva) as (? & ? & ? & ? & Hl).
  split_and!; try done. unfold outstanding. by rewrite Hl.
Qed.

(** X11. At most one cycle may commit.  In every state reached from the
    mount, two cycles whose [isMounted] is true are the same cycle; that
    cycle is the most recently started one, and the component is still
    mounted. *)
Theorem at_most_one_cycle_may_commit initialValue evs h i j ci cj :
  run evs (mount initialValue) = Some h →
  cycles h !! i = Some ci → isMounted ci = true →
  cycles h !! j = Some cj → isMounted cj = true →
  i = j ∧ latest i h = true ∧ mounted h = true.
Proof.
  intros Hr%reachable_wf Hi Hmi Hj Hmj.
  destruct (flag_latest _ _ _ Hr Hi Hmi) as [Hm Hlat].
  split_and!; try done.
  destruct Hr as [Hf _ _ _].
  pose proof (Hf _ _ Hi Hmi). pose proof (Hf _ _ Hj Hmj). congruence.
Qed.

End HookHistory.

(** * Further properties of the form *)

Section FormBehaviour.

Import AsyncValidation Form.

Local Abbreviation va := isNameValidWrapper.
Local Abbreviation taken_message := "this name has already been taken".
Local Abbreviation fetch_message :=
  "An error occurred while fetching locations. Try reloading the page.".

(** ** How a form event acts on the hook *)

Lemma step_hook ev s s' :
  step ev s = Some s' →
  nameValidation s' = nameValidation s ∨
  (∃ v, nameValidation s' = setValue va v (nameValidation s)) ∨
  (∃ id r, settle id (isNameValidWrapper_settle r) (nameValidation s)
           = Some (nameValidation s')) ∨
  unmount (nameValidation s) = Some (nameValidation s').
Proof.
  destruct ev; cbn.
  - intros [= <-]. destruct (mounted (nameValidation s)); [|by left].
    right; left. by eexists.
  - intros [= <-]. left. by destruct (mounted (nameValidation s)).
  - intros [= <-]. destruct (mounted (nameValidation s)); [|by left].
    right; left. by eexists.
  - intros [= <-]. destruct (mounted (nameValidation s)); [|by left].
    unfold handleAddClick. destruct (canAdd s); [|by left].
    right; left. by eexists.
  - destruct (settle _ _ _) as [h|] eqn:Hs; cbn; [|done]. intros [= <-].
    right; right; left. by do 2 eexists.
  - destruct (locationsSettled s); [done|]. intros [= <-]. left.
    destruct (mounted (nameValidation s)); [|done]. by destruct r.
  - destruct (unmount _) as [h|] eqn:Hu; cbn; [|done]. intros [= <-].
    by right; right; right.
Qed.

Lemma step_form_wf ev s s' :
  step ev s = Some s' → wf (nameValidation s) → wf (nameValidation s').
Proof.
  intros [->|[[v ->]|[(id & r & Hs)|Hu]]]%step_hook Hwf; [done|..].
  - by apply setValue_wf.
  - by eapply settle_wf.
  - by eapply unmount_wf.
Qed.

Lemma run_form_wf evs : ∀ s s',
  run evs s = Some s' → wf (nameValidation s) → wf (nameValidation s').
Proof.
  induction evs as [|ev evs IH]; cbn; intros s s'.
  - by intros [= <-].
  - destruct (step ev s) as [s1|] eqn:Hst; [|done].
    intros Hr Hwf. eapply IH; [exact Hr|]. by eapply step_form_wf.
Qed.

Lemma reachable_form_wf evs s : run evs mount = Some s → wf (nameValidation s).
Proof. intros Hr. eapply run_form_wf; [exact Hr|]. apply mount_wf. Qed.

(** The wrapper is an [async] function, so a value change of the name
    never touches [result]. *)
Lemma result_setValue_wrapper v h : result (setValue va v h) = result h.
Proof.
  unfold setValue. destruct (mounted h); [|done].
  destruct (String.eqb v (value h)); [done|].
  rewrite run_effect_eq. cbn. unfold run_cleanup. cbn.
  by destruct (cleanup h).
Qed.

Lemma result_settle id s h h' :
  settle id s h = Some h' → result h' = result h ∨ result h' = committed s.
Proof.
  rewrite settle_eq. destruct (cycles h !! id) as [c|]; [|done].
  destruct (settled c); [done|]. intros [= <-].
  destruct (isMounted c); [by right|by left].
Qed.

Lemma result_unmount h h' : unmount h = Some h' → result h' = result h.
Proof.
  unfold unmount. destruct (mounted h); [|done]. intros [= <-]. cbn.
  unfold run_cleanup. by destruct (cleanup h).
Qed.

Lemma shown_result_wrapper r : shown_result (committed (isNameValidWrapper_settle r)).
Proof.
  destruct r as [[]|e]; cbn; [by left | by right; left | by right; right].
Qed.

Lemma step_shown_result ev s s' :
  step ev s = Some s' →
  shown_result (result (nameValidation s)) →
  shown_result (result (nameValidation s')).
Proof.
  intros [->|[[v ->]|[(id & r & Hs)|Hu]]]%step_hook Hsh; [done|..].
  - by rewrite result_setValue_wrapper.
  - destruct (result_settle _ _ _ _ Hs) as [->| ->]; [done|].
    apply shown_result_wrapper.
  - by rewrite (result_unmount _ _ Hu).
Qed.

Lemma run_shown_result evs : ∀ s s',
  run evs s = Some s' →
  shown_result (result (nameValidation s)) →
  shown_result (result (nameValidation s')).
Proof.
  induction evs as [|ev evs IH]; cbn; intros s s'.
  - by intros [= <-].
  - destruct (step ev s) as [s1|] eqn:Hst; [|done].
    intros Hr Hsh. eapply IH; [exact Hr|]. by eapply step_shown_result.
Qed.

Lemma canAdd_empty_name s :
  value (nameValidation s) = "" → canAdd s = false.
Proof. unfold canAdd. cbn. intros ->. cbn. by rewrite andb_false_r. Qed.

Lemma canAdd_empty_location s : location s = "" → canAdd s = false.
Proof. unfold canAdd. intros ->. cbn. by rewrite andb_false_r. Qed.

(** ** The name field *)

(** X4. Whatever happens to the form, the result shown under the name
    field is one of three: valid with no message, invalid with "this name
    has already been taken", or the generic failure of the hook.  So the
    field shows a message exactly when the name is flagged invalid. *)
Theorem name_field_shows_one_of_three evs s :
  run evs mount = Some s →
  shown_result (result (nameValidation s)) ∧
  (hr_isValid (render (nameValidation s)) = true ↔
   hr_message (render (nameValidation s)) = "").
Proof.
  intros Hr.
  assert (shown_result (result (nameValidation s))) as Hsh.
  { eapply run_shown_result; [exact Hr|]. by left. }
  split; [done|]. unfold render. cbn.
  by destruct Hsh as [->|[->| ->]].
Qed.

(** X5. When the validation of the current name settles on the mounted
    form, the answer of the API decides the Add button: the exposed
    validity is the answer ([false] when the call failed), and [canAdd]
    is that validity together with a non-empty name and a non-empty
    location.  The value, the location and the table are untouched. *)
Theorem name_validation_outcome_gates_add evs s id r s' :
  run evs mount = Some s →
  mounted (nameValidation s) = true →
  latest id (nameValidation s) = true →
  step (EvNameValidated id r) s = Some s' →
  hr_isValid (render (nameValidation s')) = reported_valid r ∧
  hr_message (render (nameValidation s')) =
    match r with
    | ApiFulfilled true => ""
    | ApiFulfilled false => taken_message
    | ApiRejected _ => "An error occurred while validating. Try again later."
    end ∧
  hr_pending (render (nameValidation s')) = false ∧
  canAdd s' = reported_valid r
              && Nat.ltb 0 (String.length (value (nameValidation s)))
              && Nat.ltb 0 (String.length (location s)) ∧
  items s' = items s.
Proof.
  intros Hr%reachable_form_wf Hm Hlat. cbn.
  destruct (settle _ _ _) as [h|] eqn:Hs; cbn; [|done]. intros [= <-].
  rewrite (settle_commit _ _ _ _ Hr Hs Hm Hlat).
  unfold canAdd, reported_valid. cbn.
  split_and!; try done. by destruct r as [[]|e].
Qed.

(** ** The buttons *)

(** X6. Add is idempotent on the mounted form: the first click resets
    the name, so a second click right after it finds [canAdd] false and
    changes nothing.  A double click adds one row. *)
Theorem handleAddClick_twice s :
  mounted (nameValidation s) = true →
  handleAddClick (handleAddClick s) = handleAddClick s ∧
  canAdd (handleAddClick s) = false.
Proof.
  intros Hm.
  assert (canAdd (handleAddClick s) = false) as Hc.
  { unfold handleAddClick. destruct (canAdd s) eqn:Hcan; [|done].
    apply canAdd_empty_name. cbn. unfold initValue.
    by rewrite value_setValue. }
  split; [|done]. unfold handleAddClick at 1. by rewrite Hc.
Qed.

(** X7. [canAdd] does not look at [pending].  On a mounted form whose
    last committed result is valid and whose location is chosen, typing
    another non-empty name leaves [canAdd] true although the validation
    of that name has only just started; a click on Add then appends the
    row with the name that has not been validated. *)
Theorem canAdd_ignores_pending v s :
  mounted (nameValidation s) = true →
  hr_isValid (render (nameValidation s)) = true →
  v ≠ "" →
  v ≠ hr_value (render (nameValidation s)) →
  location s ≠ "" →
  hr_pending (render (nameValidation (handleNameChange v s))) = true ∧
  canAdd (handleNameChange v s) = true ∧
  items (handleAddClick (handleNameChange v s)) =
    items s ++ [DataItem.mk v (location s)].
Proof.
  intros Hm Hv Hne Hchg Hloc. cbn in Hv, Hchg.
  destruct (handleChange_async va v (nameValidation s) Hm Hchg eq_refl)
    as (Hres & Hval & Hp & _).
  assert (canAdd (handleNameChange v s) = true) as Hc.
  { unfold canAdd. cbn. rewrite Hres, Hval, Hv.
    by destruct v, (location s). }
  split_and!; [done|done|].
  rewrite items_handleAddClick, Hc. cbn. by rewrite Hval.
Qed.

(** X8. Clear, on the mounted form, empties the name and the location
    and nothing else: the table, the options and the location error are
    kept.  Afterwards [canAdd] is false and a second Clear changes
    nothing.  Clearing the selection of the dropdown (no [optionValue])
    also makes [canAdd] false. *)
Theorem handleClearClick_resets_inputs_only s :
  mounted (nameValidation s) = true →
  hr_value (render (nameValidation (handleClearClick s))) = "" ∧
  location (handleClearClick s) = "" ∧
  items (handleClearClick s) = items s ∧
  locationOptions (handleClearClick s) = locationOptions s ∧
  locationError (handleClearClick s) = locationError s ∧
  canAdd (handleClearClick s) = false ∧
  handleClearClick (handleClearClick s) = handleClearClick s ∧
  canAdd (handleLocationSelect None s) = false.
Proof.
  intros Hm.
  assert (value (initValue va "" (nameValidation s)) = "") as Hval
    by (unfold initValue; by rewrite value_setValue).
  split_and!; try done.
  - by apply canAdd_empty_location.
  - unfold handleClearClick. cbn. unfold initValue in *.
    by rewrite (setValue_same va "" (setValue va "" (nameValidation s))).
  - by apply canAdd_empty_location.
Qed.

(** X12. Add sends the empty name for validation.  On the mounted
    form a click on Add with [canAdd] true starts a new cycle whose
    input is [""], so [pending] becomes true; until that cycle settles
    the name field keeps the result of the name just added. *)
Theorem handleAddClick_validates_empty_name s :
  mounted (nameValidation s) = true →
  canAdd s = true →
  hr_pending (render (nameValidation (handleAddClick s))) = true ∧
  result (nameValidation (handleAddClick s)) = result (nameValidation s) ∧
  cycles (nameValidation (handleAddClick s))
    !! length (cycles (nameValidation s)) = Some (mkCycle "" true false) ∧
  latest (length (cycles (nameValidation s)))
         (nameValidation (handleAddClick s)) = true.
Proof.
  intros Hm Hc. unfold handleAddClick. rewrite Hc. cbn.
  destruct (canAdd_filled _ Hc) as [_ [Hne _]]. cbn in Hne.
  destruct (handleChange_async va "" (nameValidation s) Hm
              (λ H, Hne (eq_sym H)) eq_refl) as (Hres & _ & Hp & Hlen & Hl).
  unfold initValue, handleChange in *.
  split_and!; try done. unfold latest. rewrite Hlen. apply Nat.eqb_refl.
Qed.

(** ** The table and the locations *)

(** X9. The table only grows: along any run of the form, the rows
    present at the start are still there at the end, in the same order
    and at the same positions.  No operation removes, edits or reorders
    a row. *)
Theorem items_only_grow evs : ∀ s s',
  run evs s = Some s' → items s `prefix_of` items s'.
Proof.
  induction evs as [|ev evs IH]; cbn; intros s s'.
  - by intros [= <-].
  - destruct (step ev s) as [s1|] eqn:Hst; [|done]. intros Hr.
    specialize (IH _ _ Hr).
    destruct (step_items _ _ _ Hst) as [Heq|(_ & _ & it & _ & Heq)];
      rewrite Heq in IH; [done|].
    etrans; [|exact IH]. by apply prefix_app_r.
Qed.

(** X10. The location error and the location options exclude each
    other.  In every state the form reaches, the error is either empty
    or the fixed text about reloading the page, and in the second case
    there are no options; until [getLocations] has settled there are
    neither options nor an error. *)
Theorem location_error_excludes_options evs s :
  run evs mount = Some s →
  (locationsSettled s = false →
   locationOptions s = [] ∧ locationError s = "") ∧
  (locationError s = "" ∨
   (locationError s = fetch_message ∧ locationOptions s = [])).
Proof.
  assert (∀ evs s s',
    run evs s = Some s' →
    (locationsSettled s = false →
     locationOptions s = [] ∧ locationError s = "") ∧
    (locationError s = "" ∨
     (locationError s = fetch_message ∧ locationOptions s = [])) →
    (locationsSettled s' = false →
     locationOptions s' = [] ∧ locationError s' = "") ∧
    (locationError s' = "" ∨
     (locationError s' = fetch_message ∧ locationOptions s' = []))) as Hind.
  { clear. induction evs as [|ev evs IH]; cbn; intros s s'.
    - by intros [= <-].
    - destruct (step ev s) as [s1|] eqn:Hst; [|done].
      intros Hr Hinv. eapply IH; [exact Hr|]. clear IH Hr.
      destruct ev; cbn in Hst.
      1-4: injection Hst as <-;
           destruct (mounted (nameValidation s)); try done;
           unfold handleAddClick; by destruct (canAdd s).
      + destruct (settle _ _ _); cbn in Hst; [|done]. by injection Hst as <-.
      + destruct (locationsSettled s) eqn:Hls; [done|]. injection Hst as <-.
        destruct Hinv as [Hun _]. destruct (Hun eq_refl) as [Ho He].
        split; [done|].
        destruct (mounted (nameValidation s)); cbn; [|by left].
        destruct r; cbn; [by left|right]. by rewrite Ho.
      + destruct (unmount _); cbn in Hst; [|done]. by injection Hst as <-. }
  intros Hr. eapply Hind; [exact Hr|]. cbn. split; [done|by left].
Qed.

End FormBehaviour.

(** * The further statements on the sample runs *)

Section FurtherWitnesses.

Import AsyncValidation Samples.

Local Abbreviation va := Form.isNameValidWrapper.
Local Abbreviation typing := [EvHandleChange "a"; EvHandleChange "ab"].
Local Abbreviation adding :=
  [Form.EvNameChange "Ann";
   Form.EvNameValidated 1 (Form.ApiFulfilled true);
   Form.EvLocationSelect (Some "Canada");
   Form.EvAddClick].

Lemma latest_cycle_validates_current_value_witness :
  run va typing (mount va "") = Some typed_twice ∧
  latest 2 typed_twice = true ∧
  cycles typed_twice !! 2 = Some (mkCycle "ab" true false) ∧
  input (mkCycle "ab" true false) = value typed_twice.
Proof.
  split; [vm_compute; reflexivity|].
  split; [vm_compute; reflexivity|].
  split; [vm_compute; reflexivity|].
  apply (latest_cycle_validates_current_value va "" typing typed_twice 2
           (mkCycle "ab" true false));
    vm_compute; reflexivity.
Defined.

Lemma cycles_are_append_only_witness :
  run va [EvHandleChange "ab"; EvSettle 1 (Rejected "x"); EvUnmount]
      (handleChange va "a" just_mounted)
    = Some (with_mounted false
              (with_cleanup None (run_cleanup (mark_settled 1 typed_twice)))) ∧
  cycles (handleChange va "a" just_mounted) !! 1
    = Some (mkCycle "a" true false) ∧
  (∃ c', cycles (with_mounted false
                   (with_cleanup None
                      (run_cleanup (mark_settled 1 typed_twice)))) !! 1
           = Some c' ∧
         input c' = input (mkCycle "a" true false) ∧
         (isMounted c' = true → isMounted (mkCycle "a" true false) = true) ∧
         (settled (mkCycle "a" true false) = true → settled c' = true)).
Proof.
  split; [vm_compute; reflexivity|].
  split; [vm_compute; reflexivity|].
  apply (cycles_are_append_only va
           [EvHandleChange "ab"; EvSettle 1 (Rejected "x"); EvUnmount]
           (handleChange va "a" just_mounted));
    vm_compute; reflexivity.
Defined.

Lemma value_change_keeps_previous_result_witness :
  mounted just_mounted = true ∧
  "a" ≠ value just_mounted ∧
  va "a" = ReturnsPromise ∧
  (result (handleChange va "a" just_mounted) = result just_mounted ∧
   value (handleChange va "a" just_mounted) = "a" ∧
   pending (handleChange va "a" just_mounted) = true ∧
   length (cycles (handleChange va "a" just_mounted))
     = S (length (cycles just_mounted)) ∧
   outstanding (length (cycles just_mounted))
               (handleChange va "a" just_mounted) = true).
Proof.
  split; [vm_compute; reflexivity|].
  split; [vm_compute; discriminate|].
  split; [vm_compute; reflexivity|].
  apply (value_change_keeps_previous_result va "a" just_mounted);
    [vm_compute; reflexivity | vm_compute; discriminate
     | vm_compute; reflexivity].
Defined.

Lemma at_most_one_cycle_may_commit_witness :
  run va typing (mount va "") = Some typed_twice ∧
  cycles typed_twice !! 2 = Some (mkCycle "ab" true false) ∧
  isMounted (mkCycle "ab" true false) = true ∧
  (2 = 2 ∧ latest 2 typed_twice = true ∧ mounted typed_twice = true).
Proof.
  split; [vm_compute; reflexivity|].
  split; [vm_compute; reflexivity|].
  split; [vm_compute; reflexivity|].
  apply (at_most_one_cycle_may_commit va "" typing typed_twice 2 2
           (mkCycle "ab" true false) (mkCycle "ab" true false));
    vm_compute; reflexivity.
Defined.

Lemma name_field_shows_one_of_three_witness :
  Form.run adding Form.mount = Some one_row ∧
  (Form.shown_result (result (Form.nameValidation one_row)) ∧
   (hr_isValid (render (Form.nameValidation one_row)) = true ↔
    hr_message (render (Form.nameValidation one_row)) = "")).
Proof.
  split; [vm_compute; reflexivity|].
  apply (name_field_shows_one_of_three adding one_row).
  vm_compute; reflexivity.
Defined.

Lemma name_validation_outcome_gates_add_witness :
  Form.run [Form.EvNameChange "Ann"] Form.mount = Some name_typed ∧
  mounted (Form.nameValidation name_typed) = true ∧
  latest 1 (Form.nameValidation name_typed) = true ∧
  Form.step (Form.EvNameValidated 1 (Form.ApiFulfilled false)) name_typed
    = Some name_taken ∧
  hr_isValid (render (Form.nameValidation name_taken)) = false ∧
  Form.canAdd name_taken = false.
Proof.
  split; [vm_compute; reflexivity|].
  split; [vm_compute; reflexivity|].
  split; [vm_compute; reflexivity|].
  split; [vm_compute; reflexivity|].
  destruct (name_validation_outcome_gates_add
              [Form.EvNameChange "Ann"] name_typed 1
              (Form.ApiFulfilled false) name_taken)
    as (Hv & _ & _ & Hc & _);
    [vm_compute; reflexivity .. |].
  split; [exact Hv | exact Hc].
Defined.

Lemma handleAddClick_twice_witness :
  mounted (Form.nameValidation ready_to_add) = true ∧
  (Form.handleAddClick (Form.handleAddClick ready_to_add)
     = Form.handleAddClick ready_to_add ∧
   Form.canAdd (Form.handleAddClick ready_to_add) = false).
Proof.
  split; [vm_compute; reflexivity|].
  apply (handleAddClick_twice ready_to_add). vm_compute; reflexivity.
Defined.

Lemma canAdd_ignores_pending_witness :
  mounted (Form.nameValidation ready_to_add) = true ∧
  hr_isValid (render (Form.nameValidation ready_to_add)) = true ∧
  "Bob" ≠ "" ∧
  "Bob" ≠ hr_value (render (Form.nameValidation ready_to_add)) ∧
  Form.location ready_to_add ≠ "" ∧
  (hr_pending (render (Form.nameValidation
                         (Form.handleNameChange "Bob" ready_to_add))) = true ∧
   Form.canAdd (Form.handleNameChange "Bob" ready_to_add) = true ∧
   Form.items (Form.handleAddClick (Form.handleNameChange "Bob" ready_to_add))
     = Form.items ready_to_add
       ++ [DataItem.mk "Bob" (Form.location ready_to_add)]).
Proof.
  split; [vm_compute; reflexivity|].
  split; [vm_compute; reflexivity|].
  split; [vm_compute; discriminate|].
  split; [vm_compute; discriminate|].
  split; [vm_compute; discriminate|].
  apply (canAdd_ignores_pending "Bob" ready_to_add);
    [vm_compute; reflexivity | vm_compute; reflexivity
     | vm_compute; discriminate | vm_compute; discriminate
     | vm_compute; discriminate].
Defined.

Lemma handleClearClick_resets_inputs_only_witness :
  mounted (Form.nameValidation (Form.handleNameChange "Bob" one_row))
    = true ∧
  Form.items (Form.handleClearClick (Form.handleNameChange "Bob" one_row))
    = Form.items (Form.handleNameChange "Bob" one_row) ∧
  Form.canAdd (Form.handleClearClick (Form.handleNameChange "Bob" one_row))
    = false ∧
  Form.handleClearClick
    (Form.handleClearClick (Form.handleNameChange "Bob" one_row))
    = Form.handleClearClick (Form.handleNameChange "Bob" one_row).
Proof.
  split; [vm_compute; reflexivity|].
  destruct (handleClearClick_resets_inputs_only
              (Form.handleNameChange "Bob" one_row))
    as (_ & _ & Hi & _ & _ & Hc & Hid & _);
    [vm_compute; reflexivity|].
  split; [exact Hi|]. split; [exact Hc | exact Hid].
Defined.

Lemma handleAddClick_validates_empty_name_witness :
  mounted (Form.nameValidation ready_to_add) = true ∧
  Form.canAdd ready_to_add = true ∧
  hr_pending (render (Form.nameValidation
                        (Form.handleAddClick ready_to_add))) = true ∧
  cycles (Form.nameValidation (Form.handleAddClick ready_to_add))
    !! length (cycles (Form.nameValidation ready_to_add))
    = Some (mkCycle "" true false).
Proof.
  split; [vm_compute; reflexivity|].
  split; [vm_compute; reflexivity|].
  destruct (handleAddClick_validates_empty_name ready_to_add)
    as (Hp & _ & Hl & _);
    [vm_compute; reflexivity .. |].
  split; [exact Hp | exact Hl].
Defined.

Lemma items_only_grow_witness :
  Form.run [Form.EvNameChange "Bob"; Form.EvClearClick; Form.EvUnmount]
           one_row
    = Some (default one_row
              (Form.run [Form.EvNameChange "Bob"; Form.EvClearClick;
                         Form.EvUnmount] one_row)) ∧
  Form.items one_row `prefix_of`
    Form.items (default one_row
                  (Form.run [Form.EvNameChange "Bob"; Form.EvClearClick;
                             Form.EvUnmount] one_row)).
Proof.
  split; [vm_compute; reflexivity|].
  apply (items_only_grow
           [Form.EvNameChange "Bob"; Form.EvClearClick; Form.EvUnmount]
           one_row).
  vm_compute; reflexivity.
Defined.

Lemma location_error_excludes_options_witness :
  Form.run [Form.EvLocationsSettled (Form.ApiRejected "503")] Form.mount
    = Some locations_failed ∧
  ((Form.locationsSettled locations_failed = false →
    Form.locationOptions locations_failed = [] ∧
    Form.locationError locations_failed = "") ∧
   (Form.locationError locations_failed = "" ∨
    (Form.locationError locations_failed =
       "An error occurred while fetching locations. Try reloading the page." ∧
     Form.locationOptions locations_failed = []))).
Proof.
  split; [vm_compute; reflexivity|].
  apply (location_error_excludes_options
           [Form.EvLocationsSettled (Form.ApiRejected "503")]
           locations_failed).
  vm_compute; reflexivity.
Defined.

End FurtherWitnesses.
